(** * The "Latest posts" listing of the portfolio home page

    A shallow embedding of [src/app/page.tsx]: the statement

      const blogs = allBlogs.slice(0, 2).sort((a, b) => {
        if (new Date(a.publishedAt) > new Date(b.publishedAt)) return -1;
        return 1;
      });

    and the list it renders under "Latest posts".  JavaScript arrays are
    objects on a heap, [slice] allocates a new one and [sort] works in place,
    so the component is written in a small state-and-error monad over a store
    of arrays.  [Array.prototype.sort] and the reading of date strings are the
    host's: the development is parametric in the host, with the two sort
    algorithms of V8 and SpiderMonkey for short arrays. *)

From Stdlib Require Import ZArith Lia Ascii String.
From stdpp Require Import base option list strings sorting gmap.

Local Open Scope Z_scope.
Local Open Scope list_scope.

(** ** Dates *)

Module Date.

(** Time values are milliseconds since the epoch; [None] is the time value
    [NaN] of an Invalid Date. *)
Definition time := option Z.

Definition msPerDay : Z := 86400000.
Definition msPerHour : Z := 3600000.
Definition msPerMinute : Z := 60000.
Definition msPerSecond : Z := 1000.

(** ECMAScript's [DayFromYear], [InLeapYear], [MakeDay], [MakeTime] and
    [MakeDate], for a month numbered from 1 and a date within it. *)
Definition DayFromYear (y : Z) : Z :=
  365 * (y - 1970) + (y - 1969) / 4 - (y - 1901) / 100 + (y - 1601) / 400.

Definition InLeapYear (y : Z) : bool :=
  ((y mod 4 =? 0) && negb (y mod 100 =? 0)) || (y mod 400 =? 0).

Definition DaysInMonth (y m : Z) : Z :=
  if m =? 2 then (if InLeapYear y then 29 else 28)
  else if (m =? 4) || (m =? 6) || (m =? 9) || (m =? 11) then 30
  else 31.

Fixpoint DaysBeforeMonth (y : Z) (m : nat) : Z :=
  match m with
  | O => 0
  | S m' => DaysBeforeMonth y m' + DaysInMonth y (Z.of_nat m)
  end.

Definition MakeDay (y m d : Z) : Z :=
  DayFromYear y + DaysBeforeMonth y (Z.to_nat (m - 1)) + (d - 1).

Definition MakeTime (h mi s ms : Z) : Z :=
  h * msPerHour + mi * msPerMinute + s * msPerSecond + ms.

Definition MakeDate (day tm : Z) : Z := day * msPerDay + tm.

(** *** The Date Time String Format

    [YYYY], [YYYY-MM] and [YYYY-MM-DD], alone (then the time is midnight UTC)
    or followed by [THH:mm], [THH:mm:ss] or [THH:mm:ss.sss] and an offset [Z]
    or [+HH:mm] / [-HH:mm].  [parse] reads these and answers [None] for every
    other string: a date-time without offset is local time, a string outside
    the format is left to the engine's own heuristics, and so is a day that
    the month does not have (the engines disagree on "2024-02-30"). *)

Definition digit (c : ascii) : option Z :=
  let n := Z.of_nat (nat_of_ascii c) in
  if (48 <=? n) && (n <=? 57) then Some (n - 48) else None.

(** Exactly [n] digits, as a number, and what follows them. *)
Fixpoint digits (n : nat) (acc : Z) (cs : list ascii) : option (Z * list ascii) :=
  match n with
  | O => Some (acc, cs)
  | S n' =>
      match cs with
      | c :: cs' => d ← digit c; digits n' (10 * acc + d) cs'
      | [] => None
      end
  end.

Definition parse_date (cs : list ascii) : option (Z * Z * Z * list ascii) :=
  '(y, r) ← digits 4 0 cs;
  match r with
  | "-"%char :: r1 =>
      '(m, r2) ← digits 2 0 r1;
      match r2 with
      | "-"%char :: r3 => '(d, r4) ← digits 2 0 r3; Some (y, m, d, r4)
      | _ => Some (y, m, 1, r2)
      end
  | _ => Some (y, 1, 1, r)
  end.

Definition parse_time (cs : list ascii) : option (Z * Z * Z * Z * list ascii) :=
  '(h, r) ← digits 2 0 cs;
  match r with
  | ":"%char :: r1 =>
      '(mi, r2) ← digits 2 0 r1;
      match r2 with
      | ":"%char :: r3 =>
          '(s, r4) ← digits 2 0 r3;
          match r4 with
          | "."%char :: r5 => '(ms, r6) ← digits 3 0 r5; Some (h, mi, s, ms, r6)
          | _ => Some (h, mi, s, 0, r4)
          end
      | _ => Some (h, mi, 0, 0, r2)
      end
  | _ => None
  end.

(** The offset in minutes east of UTC. *)
Definition parse_offset (cs : list ascii) : option Z :=
  match cs with
  | ["Z"%char] => Some 0
  | sign :: r =>
      sgn ← (if Ascii.eqb sign "+" then Some 1
             else if Ascii.eqb sign "-" then Some (-1) else None);
      '(h, r1) ← digits 2 0 r;
      match r1 with
      | ":"%char :: r2 =>
          '(mi, r3) ← digits 2 0 r2;
          match r3 with
          | [] => if (h <=? 23) && (mi <=? 59) then Some (sgn * (h * 60 + mi)) else None
          | _ => None
          end
      | _ => None
      end
  | [] => None
  end.

Definition valid_time (h mi s ms : Z) : bool :=
  ((h <=? 23) && (mi <=? 59) && (s <=? 59))
  || ((h =? 24) && (mi =? 0) && (s =? 0) && (ms =? 0)).

Definition parse (s : string) : time :=
  '(y, m, d, r) ← parse_date (list_ascii_of_string s);
  if negb ((1 <=? m) && (m <=? 12) && (1 <=? d) && (d <=? DaysInMonth y m)) then None
  else
    match r with
    | [] => Some (MakeDate (MakeDay y m d) 0)
    | "T"%char :: r1 =>
        '(h, mi, sec, ms, r2) ← parse_time r1;
        off ← parse_offset r2;
        if valid_time h mi sec ms
        then Some (MakeDate (MakeDay y m d) (MakeTime h mi sec ms) - off * msPerMinute)
        else None
    | _ => None
    end.

(** [new Date(s)] for a string [s], seen through its time value, which is
    all that the relational operators read of a Date object.  A string of the
    format has the time value the format gives it; any other goes to the
    host's own parser [legacy]. *)
Definition new (legacy : string → time) (s : string) : time :=
  match parse s with
  | Some t => Some t
  | None => legacy s
  end.

(** [x > y] on two Date objects: both are converted to their time values, and
    a comparison with [NaN] is false. *)
Definition gt (x y : time) : bool :=
  match x, y with
  | Some tx, Some ty => ty <? tx
  | _, _ => false
  end.

(** [x >= y] on two Date objects. *)
Definition ge (x y : time) : bool :=
  match x, y with
  | Some tx, Some ty => ty <=? tx
  | _, _ => false
  end.

End Date.

(** ** Hosts *)

(** What the page takes from where it runs: the engine, whose sort it calls,
    and the host's reading of the date strings that are not of the format. *)
Inductive engine : Type := V8 | SpiderMonkey.

Record host : Type := mkHost {
  js : engine;
  legacy_date : string → Date.time;
}.

(** A host that reads dates of the format only. *)
Definition strict (e : engine) : host :=
  {| js := e; legacy_date := λ _, None |}.

(** ** Blog documents *)

(** Modelled from the spec: the [Blog] document type of the generated content
    module [contentlayer/generated], which the page imports and the sources do
    not include.  The fields are those of the spec's BlogDocument; [publishedAt]
    is the date of the front-matter as a date-time string, which is what the
    page hands to [new Date]. *)
Record Blog : Type := mkBlog {
  slug : string;
  title : string;
  summary : string;
  publishedAt : string;
  type : string;
  body : string;
}.

(** [new Date(b.publishedAt)] *)
Definition timestamp (h : host) (b : Blog) : Date.time :=
  Date.new (legacy_date h) (publishedAt b).

(** The comparator of [page.tsx], lines 12-17: it answers [-1] when [a] is
    strictly more recent than [b] and [1] in every other case; it never
    answers [0]. *)
Definition compareFn (h : host) (a b : Blog) : Z :=
  if Date.gt (timestamp h a) (timestamp h b) then -1 else 1.

(** ** Arrays *)

(** [Array.prototype.slice] on the elements of an array: relative indices
    count from the end, both ends are clamped to the array. *)
Definition slice_index (len i : Z) : Z :=
  if i <? 0 then Z.max (len + i) 0 else Z.min i len.

Definition slice {A : Type} (xs : list A) (start stop : Z) : list A :=
  let len := Z.of_nat (length xs) in
  let k := slice_index len start in
  let final := slice_index len stop in
  take (Z.to_nat (Z.max (final - k) 0)) (drop (Z.to_nat k) xs).

(** *** [Array.prototype.sort]

    ECMAScript fixes the result of [sort] only for a consistent comparator,
    one that answers [0] for an element against itself among other things;
    for any other the order is the engine's.  [compareFn] never answers [0],
    so the engine's algorithm is part of the program.  Both algorithms below
    are the ones for short arrays (a single run in V8, no merging in
    SpiderMonkey); the page sorts at most two elements. *)
Section Sort.
Context {A : Type} (comparefn : A → A → Z).

(** V8, [CountAndMakeRun]: the first two elements decide whether the
    leading run descends (strictly), the run is extended while the
    following elements agree, and a descending run is reversed. *)
Fixpoint extend_run (descending : bool) (previous : A) (rest : list A)
  : list A * list A :=
  match rest with
  | [] => ([], [])
  | current :: rest' =>
      let order := comparefn current previous in
      if (if descending then 0 <=? order else order <? 0) then ([], rest)
      else
        let '(run, after) := extend_run descending current rest' in
        (current :: run, after)
  end.

Definition CountAndMakeRun (work : list A) : list A * list A :=
  match work with
  | elementHigh :: elementLow :: rest =>
      let descending := comparefn elementLow elementHigh <? 0 in
      let '(run, after) := extend_run descending elementLow rest in
      let whole := elementHigh :: elementLow :: run in
      (if descending then reverse whole else whole, after)
  | _ => (work, [])
  end.

(** V8, [BinaryInsertionSort]: the place of [pivot] in the sorted prefix is
    found by bisection, after every element that does not compare above
    it. *)
Fixpoint bisect (fuel : nat) (sorted : list A) (pivot : A) (left right : nat) : nat :=
  match fuel with
  | O => left
  | S fuel' =>
      if (right <=? left)%nat then left
      else
        let mid := (left + (right - left) / 2)%nat in
        match sorted !! mid with
        | Some x =>
            if comparefn pivot x <? 0
            then bisect fuel' sorted pivot left mid
            else bisect fuel' sorted pivot (S mid) right
        | None => left
        end
  end.

Definition binary_insert (sorted : list A) (pivot : A) : list A :=
  let k := bisect (length sorted) sorted pivot 0 (length sorted) in
  take k sorted ++ pivot :: drop k sorted.

Definition BinaryInsertionSort (run rest : list A) : list A :=
  foldl binary_insert run rest.

Definition ArrayTimSort (xs : list A) : list A :=
  if (length xs <? 2)%nat then xs
  else let '(run, rest) := CountAndMakeRun xs in BinaryInsertionSort run rest.

(** SpiderMonkey, [InsertionSort]: [item] moves left past every element
    that compares above it; the prefix is kept nearest element first. *)
Fixpoint insert_item (item : A) (before : list A) : list A :=
  match before with
  | [] => [item]
  | swap :: before' =>
      if comparefn swap item <=? 0 then item :: before
      else swap :: insert_item item before'
  end.

Definition InsertionSort (xs : list A) : list A :=
  reverse (foldl (λ before item, insert_item item before) [] xs).

End Sort.

Definition engine_sort {A : Type} (e : engine) (comparefn : A → A → Z) (xs : list A)
  : list A :=
  match e with
  | V8 => ArrayTimSort comparefn xs
  | SpiderMonkey => InsertionSort comparefn xs
  end.

(** ** The store of arrays *)

(** A reference is an index into the store; a new array goes to its end. *)
Abbreviation ref := nat (only parsing).
Abbreviation heap := (list (list Blog)) (only parsing).

(** Computations read and update the store, or stop with a [TypeError] (here:
    a reference that holds no array). *)
Definition M (X : Type) : Type := heap → option (X * heap).

Definition ret {X : Type} (x : X) : M X := λ st, Some (x, st).

Definition bind {X Y : Type} (m : M X) (k : X → M Y) : M Y :=
  λ st, match m st with
        | Some (x, st') => k x st'
        | None => None
        end.

Notation "'let*' x ':=' m 'in' k" := (bind m (λ x, k))
  (at level 10, x name, m at level 100, k at level 200).

(** [xs.slice(start, stop)]: a new array, [xs] is only read. *)
Definition Array_slice (xs : ref) (start stop : Z) : M ref :=
  λ st, match st !! xs with
        | Some elems => Some (length st, st ++ [slice elems start stop])
        | None => None
        end.

(** [xs.sort(comparefn)]: the array is sorted in place and is the result. *)
Definition Array_sort (e : engine) (xs : ref) (comparefn : Blog → Blog → Z) : M ref :=
  λ st, match st !! xs with
        | Some elems => Some (xs, <[xs := engine_sort e comparefn elems]> st)
        | None => None
        end.

(** [xs.map(f)], read as the list of what [f] returns. *)
Definition Array_map {X : Type} (xs : ref) (f : Blog → X) : M (list X) :=
  λ st, match st !! xs with
        | Some elems => Some (f <$> elems, st)
        | None => None
        end.

(** ** The component *)

(** [const blogs = allBlogs.slice(0, 2).sort(...)] *)
Definition Home_blogs (h : host) (allBlogs : ref) : M ref :=
  let* firstTwo := Array_slice allBlogs 0 2 in
  Array_sort (js h) firstTwo (compareFn h).

(** The same on the elements alone. *)
Definition latest_posts (h : host) (allBlogs : list Blog) : list Blog :=
  engine_sort (js h) (compareFn h) (slice allBlogs 0 2).

(** The list under "Latest posts": one item per blog, keyed by its slug and
    linking to its page. *)
Record item : Type := mkItem {
  key : string;
  href : string;
  card : Blog;
}.

Definition render_item (blog : Blog) : item :=
  {| key := slug blog; href := "/blog/" +:+ slug blog; card := blog |}.

Definition Home_list (blogs : list Blog) : list item := render_item <$> blogs.

(** The component: the items it puts under "Latest posts". *)
Definition Home (h : host) (allBlogs : ref) : M (list item) :=
  let* blogs := Home_blogs h allBlogs in
  Array_map blogs render_item.

(** ** The content directory *)

(** Modelled from the spec: the loader behind [allBlogs] (contentlayer and its
    configuration are not among the sources).  A blog document is a file of
    the content directory, with the front-matter fields [title], [summary],
    [type] and [publishedAt] and a body, and its slug is "derived from
    filename": here the file name without the [.mdx] extension. *)
Record file : Type := mkFile {
  filename : string;
  fm_title : string;
  fm_summary : string;
  fm_type : string;
  fm_publishedAt : string;
  content : string;
}.

Definition extension : string := ".mdx".

Fixpoint strip_extension (name : string) : string :=
  match name with
  | EmptyString => EmptyString
  | String c rest =>
      if String.eqb name extension then EmptyString
      else String c (strip_extension rest)
  end.

Definition has_extension (name : string) : Prop :=
  ∃ stem, name = stem +:+ extension.

Definition load (f : file) : Blog :=
  {| slug := strip_extension (filename f);
     title := fm_title f;
     summary := fm_summary f;
     publishedAt := fm_publishedAt f;
     type := fm_type f;
     body := content f |}.

Definition allBlogs_of (dir : list file) : list Blog := load <$> dir.

(** The two posts of [src/content], by their front-matter; the bodies are
    left open. *)
Definition format_nestjs_response (text : string) : file :=
  {| filename := "format-nestjs-response.mdx";
     fm_title := "Format Nest.js Response using Interceptors";
     fm_summary :=
       "Learn how to format and make the standardarized response in Nest.js using Interceptors.";
     fm_type := "Blog";
     fm_publishedAt := "2024-04-28";
     content := text |}.

Definition serialize_response_nestjs (text : string) : file :=
  {| filename := "serialize-response-nestjs.mdx";
     fm_title :=
       "Serialize Nest.js API Response using class-transformer and class-validator";
     fm_summary :=
       "Learn how to serialize Nest.js API response using class-transformer and class-validator";
     fm_type := "Blog";
     fm_publishedAt := "2024-04-30";
     content := text |}.

Definition content_dir (text1 text2 : string) : list file :=
  [format_nestjs_response text1; serialize_response_nestjs text2].

(** Sample documents: five posts in collection order, oldest first. *)
Definition post (name date : string) : Blog :=
  {| slug := name; title := name; summary := ""; publishedAt := date;
     type := "Blog"; body := "" |}.

Definition p1 : Blog := post "one" "2024-01-01".
Definition p2 : Blog := post "two" "2024-01-02".
Definition p3 : Blog := post "three" "2024-01-03".
Definition p4 : Blog := post "four" "2024-01-04".
Definition p5 : Blog := post "five" "2024-01-05".
Definition five_posts : list Blog := [p1; p2; p3; p4; p5].

(** Two posts of the same day. *)
Definition morning : Blog := post "morning" "2024-04-28".
Definition evening : Blog := post "evening" "2024-04-28".

(** A post whose [publishedAt] is no date on a strict host. *)
Definition draft : Blog := post "draft" "soon".

(** ** Social links *)

(** The icons of [components/icons] that the data module imports; they are
    components, of which only the identity matters here. *)
Inductive Icon : Type := GitHubIcon | InstagramIcon | LinkedInIcon | XIcon.

Module Social.

Record t : Type := mk {
  label : string;
  href : string;
  icon : Icon;
}.

(** The properties [page.tsx] hands to a [SocialLink], lines 72-79. *)
Record link : Type := mkLink {
  key : string;
  aria_label : string;
  link_href : string;
  link_icon : Icon;
}.

Definition render (social : t) : link :=
  {| key := label social;
     aria_label := "Follow on " +:+ label social;
     link_href := href social;
     link_icon := icon social |}.

End Social.

(** [data/socials]: the exported array. *)
Definition SOCIALS : list Social.t :=
  [ Social.mk "GitHub" "https://github.com/sharmaketann" GitHubIcon;
    Social.mk "X" "https://x.com/sharmaketann" XIcon;
    Social.mk "LinkedIn" "https://www.linkedin.com/in/sharmaketann" LinkedInIcon ].

(** [SOCIALS.map(...)] in the component. *)
Definition Home_socials (socials : list Social.t) : list Social.link :=
  Social.render <$> socials.

(** ** Calendar dates and their strings *)

(** A day of the calendar, in a year of four digits. *)
Definition calendar_date (y m d : Z) : Prop :=
  0 ≤ y ≤ 9999 ∧ 1 ≤ m ≤ 12 ∧ 1 ≤ d ≤ Date.DaysInMonth y m.

(** The order of the calendar. *)
Definition later (y1 m1 d1 y2 m2 d2 : Z) : Prop :=
  y2 < y1 ∨ (y1 = y2 ∧ (m2 < m1 ∨ (m1 = m2 ∧ d2 < d1))).

(** The date-only string [YYYY-MM-DD] of the front-matter. *)
Definition digit_char (k : Z) : ascii := ascii_of_nat (Z.to_nat (48 + k)).

Definition two_digits (n : Z) : list ascii :=
  [digit_char (n / 10); digit_char (n mod 10)].

Definition four_digits (n : Z) : list ascii :=
  [digit_char (n / 1000); digit_char (n / 100 mod 10);
   digit_char (n / 10 mod 10); digit_char (n mod 10)].

Definition date_chars (y m d : Z) : list ascii :=
  four_digits y ++ "-"%char :: two_digits m ++ "-"%char :: two_digits d.

Definition date_string (y m d : Z) : string :=
  string_of_list_ascii (date_chars y m d).

(** The same day as a date-time string, at midnight UTC. *)
Definition midnight_string (y m d : Z) : string :=
  string_of_list_ascii
    (date_chars y m d ++ list_ascii_of_string "T00:00:00.000Z").

(** ** The response interceptor of the first post *)

(** [content/format-nestjs-response.mdx] builds a Nest.js interceptor that
    wraps what a route handler returns; this is its final listing, with the
    decorator that hands it a message.  The framework is seen through what
    the listing reads of it: the request's URL, the response's status code,
    the metadata of the route handler, the stream of the handler's results,
    and the clock behind [format(new Date().toISOString(), ...)]. *)
Module Nest.

Definition RESPONSE_MESSAGE_METADATA : string := "responseMessage".

(** The metadata of a route handler: [SetMetadata] writes it under a key and
    [Reflector.get] reads it, [undefined] where nothing was written. *)
Definition SetMetadata (name value : string) (target : gmap string string)
  : gmap string string :=
  <[name := value]> target.

Definition Reflector_get (name : string) (target : gmap string string)
  : option string :=
  target !! name.

(** [ResponseMessage(message)], a decorator of route handlers. *)
Definition ResponseMessage (message : string) (target : gmap string string)
  : gmap string string :=
  SetMetadata RESPONSE_MESSAGE_METADATA message target.

(** [x || y] for a string or [undefined] on the left: the empty string is as
    false as [undefined]. *)
Definition or_else (x : option string) (y : string) : string :=
  match x with
  | Some s => if String.eqb s "" then y else s
  | None => y
  end.

(** What is thrown in a handler: an [HttpException], or anything else, of
    which the interceptor reads the [message] only. *)
Inductive thrown : Type :=
  | HttpException (status : Z) (message : string)
  | Other (message : option string).

Definition INTERNAL_SERVER_ERROR : Z := 500.

Record ExecutionContext : Type := mkContext {
  url : string;                     (* context.switchToHttp().getRequest().url *)
  response_statusCode : Z;          (* ...getResponse().statusCode *)
  getHandler : gmap string string;  (* the metadata of context.getHandler() *)
}.

(** [Response<T>], the object [responseHandler] returns. *)
Record Response (T : Type) : Type := mkResponse {
  status : bool;
  path : string;
  message : string;
  statusCode : Z;
  data : T;
  timestamp : string;
}.
Arguments mkResponse {T}.
Arguments status {T}.
Arguments path {T}.
Arguments message {T}.
Arguments statusCode {T}.
Arguments data {T}.
Arguments timestamp {T}.

(** The object [errorHandler] sends, and the status it sends it with. *)
Record ErrorBody : Type := mkErrorBody {
  error_status : bool;
  error_statusCode : Z;
  error_path : string;
  error_message : option string;
  result : thrown;
  error_timestamp : string;
}.

Record Sent : Type := mkSent {
  sent_status : Z;                  (* response.status(status) *)
  sent_json : ErrorBody;            (* .json({...}) *)
}.

(** [responseHandler(res, context)], at a moment when the clock reads [now]. *)
Definition responseHandler {T : Type} (res : T) (context : ExecutionContext)
    (now : string) : Response T :=
  let statusCode := response_statusCode context in
  let message :=
    or_else (Reflector_get RESPONSE_MESSAGE_METADATA (getHandler context)) "success" in
  {| status := true;
     path := url context;
     message := message;
     statusCode := statusCode;
     data := res;
     timestamp := now |}.

(** [errorHandler(exception, context)]: it sends the error and returns
    nothing. *)
Definition errorHandler (exception : thrown) (context : ExecutionContext)
    (now : string) : Sent :=
  let status :=
    match exception with
    | HttpException s _ => s
    | Other _ => INTERNAL_SERVER_ERROR
    end in
  {| sent_status := status;
     sent_json :=
       {| error_status := false;
          error_statusCode := status;
          error_path := url context;
          error_message :=
            match exception with
            | HttpException _ m => Some m
            | Other m => m
            end;
          result := exception;
          error_timestamp := now |} |}.

(** A stream that has come to its end: the values it emitted and, if it
    failed, the error it failed with. *)
Record Observable (V E : Type) : Type := mkObservable {
  emitted : list V;
  failure : option E;
}.
Arguments mkObservable {V E}.
Arguments emitted {V E}.
Arguments failure {V E}.

(** [map((res) => this.responseHandler(res, context))] from the [i]-th
    reading of the clock on. *)
Fixpoint map_responseHandler {T : Type} (context : ExecutionContext)
    (clock : nat → string) (i : nat) (values : list T) : list (Response T) :=
  match values with
  | [] => []
  | res :: values' =>
      responseHandler res context (clock i)
      :: map_responseHandler context clock (S i) values'
  end.

(** [intercept(context, next)] on the stream of [next.handle()]: the values
    are mapped; an error is caught and replaced by the failure with what
    [errorHandler] returns, which is [undefined]. *)
Definition intercept {T : Type} (context : ExecutionContext) (clock : nat → string)
    (handled : Observable T thrown) : Observable (Response T) unit * option Sent :=
  let responses := map_responseHandler context clock 0 (emitted handled) in
  match failure handled with
  | None => (mkObservable responses None, None)
  | Some err =>
      (mkObservable responses (Some tt),
       Some (errorHandler err context (clock (length (emitted handled)))))
  end.

End Nest.

(** A context whose route handler has been decorated. *)
Definition decorated (decorator : gmap string string → gmap string string)
    (context : Nest.ExecutionContext) : Nest.ExecutionContext :=
  Nest.mkContext (Nest.url context) (Nest.response_statusCode context)
    (decorator (Nest.getHandler context)).

(** ** What the properties speak of *)

(** A sequence is in descending order of [publishedAt] when each element's
    time value is [>=] that of the next. *)
Definition descending (h : host) (blogs : list Blog) : Prop :=
  ∀ i a b, blogs !! i = Some a → blogs !! S i = Some b →
    Date.ge (timestamp h a) (timestamp h b) = true.

(** A document whose [publishedAt] the host reads as a date. *)
Definition dated (h : host) (b : Blog) : Prop := is_Some (timestamp h b).

(** * Properties *)

(** ** The engine's sort, for any comparator *)

Section SortFacts.
Context {A : Type} (comparefn : A → A → Z).

Lemma extend_run_app descending previous rest run after :
  extend_run comparefn descending previous rest = (run, after) →
  run ++ after = rest.
Proof.
  revert previous run after.
  induction rest as [|current rest IH]; intros previous run after; simpl.
  - by intros [= <- <-].
  - destruct (if descending then _ else _).
    + by intros [= <- <-].
    + destruct (extend_run _ _ current rest) as [run' after'] eqn:E.
      intros [= <- <-]. simpl. f_equal. eauto.
Qed.

Lemma CountAndMakeRun_perm work run rest :
  CountAndMakeRun comparefn work = (run, rest) → run ++ rest ≡ₚ work.
Proof.
  destruct work as [|x [|y tl]]; simpl.
  1-2: by intros [= <- <-].
  destruct (extend_run _ _ y tl) as [run' after] eqn:E.
  apply extend_run_app in E. subst tl.
  intros [= <- <-]. destruct (_ <? 0); [|done].
  by rewrite reverse_Permutation.
Qed.

Lemma binary_insert_perm sorted pivot :
  binary_insert comparefn sorted pivot ≡ₚ pivot :: sorted.
Proof.
  unfold binary_insert. by rewrite <- Permutation_middle, take_drop.
Qed.

Lemma BinaryInsertionSort_perm run rest :
  BinaryInsertionSort comparefn run rest ≡ₚ run ++ rest.
Proof.
  unfold BinaryInsertionSort. revert run.
  induction rest as [|x rest IH]; intros run; simpl.
  - by rewrite app_nil_r.
  - by rewrite IH, binary_insert_perm, <- Permutation_middle.
Qed.

Lemma ArrayTimSort_perm xs : ArrayTimSort comparefn xs ≡ₚ xs.
Proof.
  unfold ArrayTimSort. destruct (_ <? _)%nat; [done|].
  destruct (CountAndMakeRun comparefn xs) as [run rest] eqn:E.
  rewrite BinaryInsertionSort_perm. by apply CountAndMakeRun_perm.
Qed.

Lemma insert_item_perm item before :
  insert_item comparefn item before ≡ₚ item :: before.
Proof.
  induction before as [|swap before IH]; simpl; [done|].
  destruct (_ <=? 0); [done|]. rewrite IH. apply Permutation_swap.
Qed.

Lemma InsertionSort_perm xs : InsertionSort comparefn xs ≡ₚ xs.
Proof.
  unfold InsertionSort. rewrite reverse_Permutation.
  enough (∀ before,
    foldl (λ before item, insert_item comparefn item before) before xs
      ≡ₚ before ++ xs) as H by apply (H []).
  induction xs as [|x xs IH]; intros before; simpl.
  - by rewrite app_nil_r.
  - by rewrite IH, insert_item_perm, <- Permutation_middle.
Qed.

Lemma engine_sort_perm e xs : engine_sort e comparefn xs ≡ₚ xs.
Proof. destruct e; [apply ArrayTimSort_perm | apply InsertionSort_perm]. Qed.

Lemma engine_sort_length e xs : length (engine_sort e comparefn xs) = length xs.
Proof. by rewrite engine_sort_perm. Qed.

Lemma engine_sort_nil e : engine_sort e comparefn [] = [].
Proof. by destruct e. Qed.

Lemma engine_sort_one e x : engine_sort e comparefn [x] = [x].
Proof. by destruct e. Qed.

(** On two elements each engine asks the comparator one question: V8
    whether the second goes before the first, SpiderMonkey whether the first
    may stay before the second. *)
Lemma V8_sort_two x y :
  engine_sort V8 comparefn [x; y] = if comparefn y x <? 0 then [y; x] else [x; y].
Proof. simpl. unfold ArrayTimSort. simpl. by destruct (_ <? 0). Qed.

Lemma SpiderMonkey_sort_two x y :
  engine_sort SpiderMonkey comparefn [x; y]
  = if comparefn x y <=? 0 then [x; y] else [y; x].
Proof. simpl. unfold InsertionSort. simpl. by destruct (_ <=? 0). Qed.
End SortFacts.

(** ** Slicing *)

Lemma slice_0_2 {A : Type} (xs : list A) : slice xs 0 2 = take 2 xs.
Proof.
  unfold slice, slice_index.
  change (0 <? 0) with false. change (2 <? 0) with false. cbv iota.
  rewrite (Z.min_l 0) by lia. rewrite Z.sub_0_r.
  change (Z.to_nat 0) with 0%nat. rewrite drop_0.
  replace (Z.to_nat (Z.max (Z.min 2 (Z.of_nat (length xs))) 0))
    with (2 `min` length xs)%nat by lia.
  by rewrite <- take_take, (take_ge xs (length xs)).
Qed.

(** ** The component on the store *)

Lemma Home_blogs_run h st allBlogs docs :
  st !! allBlogs = Some docs →
  Home_blogs h allBlogs st = Some (length st, st ++ [latest_posts h docs]).
Proof.
  intros Hdocs. unfold Home_blogs, bind, Array_slice, Array_sort.
  rewrite Hdocs. rewrite list_lookup_middle by done.
  rewrite insert_app_r_alt by done. by rewrite Nat.sub_diag.
Qed.

Lemma Home_run h st allBlogs docs :
  st !! allBlogs = Some docs →
  Home h allBlogs st
  = Some (Home_list (latest_posts h docs), st ++ [latest_posts h docs]).
Proof.
  intros Hdocs. unfold Home, bind.
  rewrite (Home_blogs_run h st allBlogs docs Hdocs).
  unfold Array_map. by rewrite list_lookup_middle.
Qed.

(** ** The listing on the elements *)

Lemma latest_posts_take h docs :
  latest_posts h docs = engine_sort (js h) (compareFn h) (take 2 docs).
Proof. unfold latest_posts. by rewrite slice_0_2. Qed.

Lemma latest_posts_perm h docs : latest_posts h docs ≡ₚ take 2 docs.
Proof. rewrite latest_posts_take. apply engine_sort_perm. Qed.

Lemma latest_posts_length h docs :
  length (latest_posts h docs) = (2 `min` length docs)%nat.
Proof. by rewrite latest_posts_perm, length_take. Qed.

Lemma latest_posts_elem h docs d :
  d ∈ latest_posts h docs → ∃ j, docs !! j = Some d ∧ (j < 2)%nat.
Proof. rewrite latest_posts_perm. apply elem_of_take. Qed.

Lemma compareFn_neg h a b :
  (compareFn h a b <? 0) = Date.gt (timestamp h a) (timestamp h b).
Proof. unfold compareFn. by destruct (Date.gt _ _). Qed.

Lemma compareFn_nonpos h a b :
  (compareFn h a b <=? 0) = Date.gt (timestamp h a) (timestamp h b).
Proof. unfold compareFn. by destruct (Date.gt _ _). Qed.

Lemma latest_posts_V8 h a b rest :
  js h = V8 →
  latest_posts h (a :: b :: rest)
  = if Date.gt (timestamp h b) (timestamp h a) then [b; a] else [a; b].
Proof.
  intros He. rewrite latest_posts_take, He. cbn [take]. rewrite take_0.
  by rewrite V8_sort_two, compareFn_neg.
Qed.

Lemma latest_posts_SpiderMonkey h a b rest :
  js h = SpiderMonkey →
  latest_posts h (a :: b :: rest)
  = if Date.gt (timestamp h a) (timestamp h b) then [a; b] else [b; a].
Proof.
  intros He. rewrite latest_posts_take, He. cbn [take]. rewrite take_0.
  by rewrite SpiderMonkey_sort_two, compareFn_nonpos.
Qed.

Lemma latest_posts_nil h : latest_posts h [] = [].
Proof. rewrite latest_posts_take. apply engine_sort_nil. Qed.

Lemma latest_posts_one h a : latest_posts h [a] = [a].
Proof. rewrite latest_posts_take. apply engine_sort_one. Qed.

Lemma Home_list_card blogs : card <$> Home_list blogs = blogs.
Proof.
  unfold Home_list. induction blogs as [|b blogs IH]; simpl; [done|].
  f_equal. exact IH.
Qed.

Lemma Home_list_key blogs : key <$> Home_list blogs = slug <$> blogs.
Proof.
  unfold Home_list. induction blogs as [|b blogs IH]; simpl; [done|].
  f_equal. exact IH.
Qed.

(** ** Dates and order *)

(** A string of the format has the same time value on every host. *)
Lemma Date_new_parse legacy s t : Date.parse s = Some t → Date.new legacy s = Some t.
Proof. intros H. unfold Date.new. by rewrite H. Qed.

Lemma Date_gt_irrefl x : Date.gt x x = false.
Proof. destruct x as [t|]; simpl; [apply Z.ltb_irrefl | done]. Qed.

Lemma Date_gt_ge x y : Date.gt x y = true → Date.ge x y = true.
Proof.
  destruct x as [tx|], y as [ty|]; simpl; try done.
  intros H. apply Z.leb_le. apply Z.ltb_lt in H. lia.
Qed.

Lemma Date_not_gt_ge x y :
  is_Some x → is_Some y → Date.gt x y = false → Date.ge y x = true.
Proof.
  intros [tx ->] [ty ->]. simpl.
  intros H. apply Z.leb_le. apply Z.ltb_ge in H. lia.
Qed.

Lemma descending_short h blogs : (length blogs ≤ 1)%nat → descending h blogs.
Proof.
  intros Hlen i a b _ Hb. apply lookup_lt_Some in Hb. lia.
Qed.

Lemma descending_two h a b :
  Date.ge (timestamp h a) (timestamp h b) = true → descending h [a; b].
Proof.
  intros Hge [|[|i]] x y Hx Hy; simpl in *; try done.
  by injection Hx as <-; injection Hy as <-.
Qed.

Lemma latest_posts_descending h docs :
  Forall (dated h) docs → descending h (latest_posts h docs).
Proof.
  intros Hdated. destruct docs as [|a [|b rest]].
  - rewrite latest_posts_nil. apply descending_short. simpl. lia.
  - rewrite latest_posts_one. apply descending_short. simpl. lia.
  - apply Forall_cons in Hdated as [Ha Hdated].
    apply Forall_cons in Hdated as [Hb _].
    destruct (js h) eqn:He.
    + rewrite latest_posts_V8 by done.
      destruct (Date.gt (timestamp h b) (timestamp h a)) eqn:E;
        apply descending_two.
      * by apply Date_gt_ge.
      * by apply Date_not_gt_ge.
    + rewrite latest_posts_SpiderMonkey by done.
      destruct (Date.gt (timestamp h a) (timestamp h b)) eqn:E;
        apply descending_two.
      * by apply Date_gt_ge.
      * by apply Date_not_gt_ge.
Qed.

(** ** Slugs *)

Lemma string_length_append (s1 s2 : string) :
  String.length (s1 +:+ s2) = (String.length s1 + String.length s2)%nat.
Proof. induction s1 as [|c s1 IH]; simpl; [done | by rewrite IH]. Qed.

Lemma strip_extension_stem stem : strip_extension (stem +:+ extension) = stem.
Proof.
  induction stem as [|c stem IH]; [done|].
  change (String c stem +:+ extension) with (String c (stem +:+ extension)).
  cbn [strip_extension].
  destruct (String.eqb _ extension) eqn:E; [|by rewrite IH].
  apply String.eqb_eq in E. apply (f_equal String.length) in E.
  simpl in E. rewrite string_length_append in E. simpl in E. lia.
Qed.

Lemma strip_extension_inj name1 name2 :
  has_extension name1 → has_extension name2 →
  strip_extension name1 = strip_extension name2 → name1 = name2.
Proof.
  intros [stem1 ->] [stem2 ->]. rewrite !strip_extension_stem. by intros ->.
Qed.

Lemma slug_allBlogs_of dir :
  slug <$> allBlogs_of dir = strip_extension <$> (filename <$> dir).
Proof.
  unfold allBlogs_of. induction dir as [|f dir IH]; simpl; [done|].
  f_equal. exact IH.
Qed.

(** * The listing *)

(** C1, as the page has it: the count is the constant 2 and not a parameter;
    for every collection whose documents are dated, the listing holds at most
    two documents, in descending order of [publishedAt], each of them a
    document of the collection. *)
Theorem latest_posts_at_most_two_descending h docs :
  Forall (dated h) docs →
  (length (latest_posts h docs) ≤ 2)%nat
  ∧ descending h (latest_posts h docs)
  ∧ latest_posts h docs ⊆ docs.
Proof.
  intros Hdated. split; [|split].
  - rewrite latest_posts_length. lia.
  - by apply latest_posts_descending.
  - intros d Hd. apply latest_posts_elem in Hd as (j & Hj & _).
    by apply list_elem_of_lookup_2 in Hj.
Qed.

Lemma latest_posts_at_most_two_descending_witness :
  Forall (dated (strict V8)) five_posts
  ∧ (length (latest_posts (strict V8) five_posts) ≤ 2)%nat
  ∧ descending (strict V8) (latest_posts (strict V8) five_posts)
  ∧ latest_posts (strict V8) five_posts ⊆ five_posts.
Proof.
  assert (Forall (dated (strict V8)) five_posts) as Hdated
    by (repeat constructor; vm_compute; eauto).
  split; [exact Hdated|].
  exact (latest_posts_at_most_two_descending (strict V8) five_posts Hdated).
Defined.

(** C1 as stated fails: asked for one document out of five, the page lists
    two on either engine, the first two of the collection, and the most recent
    of the five is not among them. *)
Lemma latest_posts_one_of_five :
  latest_posts (strict V8) five_posts = [p2; p1]
  ∧ latest_posts (strict SpiderMonkey) five_posts = [p2; p1]
  ∧ ¬ (length (latest_posts (strict V8) five_posts) ≤ 1)%nat
  ∧ (∀ d, d ∈ five_posts →
       Date.ge (timestamp (strict V8) p5) (timestamp (strict V8) d) = true)
  ∧ p5 ∈ five_posts
  ∧ p5 ∉ latest_posts (strict V8) five_posts.
Proof.
  assert (latest_posts (strict V8) five_posts = [p2; p1]) as Hout
    by (vm_compute; reflexivity).
  rewrite Hout. split; [done|]. split; [vm_compute; reflexivity|].
  split; [simpl; lia|]. split; [|split].
  - intros d Hd. unfold five_posts in Hd.
    repeat (apply elem_of_cons in Hd as [-> | Hd]; [vm_compute; reflexivity|]).
    by apply elem_of_nil in Hd.
  - unfold five_posts. do 4 apply list_elem_of_further. apply list_elem_of_here.
  - intros Hin.
    repeat (apply elem_of_cons in Hin as [Heq | Hin]; [discriminate Heq|]).
    by apply elem_of_nil in Hin.
Qed.

(** C3: for every collection of dated documents, each element of the listing
    has a timestamp greater than or equal to that of the element after it. *)
Theorem latest_posts_adjacent_ge h docs i a b :
  Forall (dated h) docs →
  latest_posts h docs !! i = Some a →
  latest_posts h docs !! S i = Some b →
  ∃ ta tb, timestamp h a = Some ta ∧ timestamp h b = Some tb ∧ tb ≤ ta.
Proof.
  intros Hdated Ha Hb.
  pose proof (latest_posts_descending h docs Hdated i a b Ha Hb) as Hge.
  destruct (timestamp h a) as [ta|], (timestamp h b) as [tb|];
    simpl in Hge; try done.
  exists ta, tb. repeat split. by apply Z.leb_le.
Qed.

Lemma latest_posts_adjacent_ge_witness :
  ∃ ta tb,
    timestamp (strict SpiderMonkey) p2 = Some ta
    ∧ timestamp (strict SpiderMonkey) p1 = Some tb
    ∧ tb ≤ ta.
Proof.
  apply (latest_posts_adjacent_ge (strict SpiderMonkey) five_posts 0 p2 p1).
  - repeat constructor; vm_compute; eauto.
  - vm_compute; reflexivity.
  - vm_compute; reflexivity.
Defined.

(** C4, with the count the page fixes: for every collection the listing has
    [min 2 (length docs)] documents, and as many items are rendered. *)
Theorem latest_posts_length_min_two h docs :
  length (latest_posts h docs) = (2 `min` length docs)%nat
  ∧ length (Home_list (latest_posts h docs)) = (2 `min` length docs)%nat.
Proof.
  unfold Home_list. rewrite length_fmap. split; apply latest_posts_length.
Qed.

(** C4 as stated fails for every count but 2: five documents give two, which
    is neither [min 1 5] nor [min 5 5]. *)
Lemma latest_posts_length_other_counts :
  length (latest_posts (strict V8) five_posts) ≠ (1 `min` length five_posts)%nat
  ∧ length (latest_posts (strict V8) five_posts) ≠ (5 `min` length five_posts)%nat.
Proof. split; vm_compute; lia. Qed.

(** C5: a document of 2024-04-28 followed by one of 2024-04-30 is listed
    with the document of 2024-04-30 first, on every host; the two posts of
    the content directory are such documents. *)
Theorem latest_posts_april h a b :
  Date.parse (publishedAt a) = Date.parse "2024-04-28" →
  Date.parse (publishedAt b) = Date.parse "2024-04-30" →
  latest_posts h [a; b] = [b; a].
Proof.
  intros Ha Hb.
  assert (timestamp h a = Some 1714262400000) as Hta
    by (apply Date_new_parse; rewrite Ha; vm_compute; reflexivity).
  assert (timestamp h b = Some 1714435200000) as Htb
    by (apply Date_new_parse; rewrite Hb; vm_compute; reflexivity).
  destruct (js h) eqn:He.
  - rewrite latest_posts_V8, Hta, Htb by done. reflexivity.
  - rewrite latest_posts_SpiderMonkey, Hta, Htb by done. reflexivity.
Qed.

Lemma latest_posts_april_witness :
  latest_posts (strict V8) (allBlogs_of (content_dir "" ""))
  = [load (serialize_response_nestjs ""); load (format_nestjs_response "")].
Proof.
  apply (latest_posts_april (strict V8)
           (load (format_nestjs_response "")) (load (serialize_response_nestjs "")));
    reflexivity.
Defined.

(** C6: for every collection, the blogs rendered under "Latest posts" are a
    permutation of the first [min 2 (length allBlogs)] documents: the listing
    is the sort of that prefix, and each of its documents stands at one of the
    first two positions of the collection. *)
Theorem Home_list_permutes_first_two h allBlogs :
  card <$> Home_list (latest_posts h allBlogs)
    ≡ₚ take (2 `min` length allBlogs) allBlogs
  ∧ latest_posts h allBlogs = engine_sort (js h) (compareFn h) (take 2 allBlogs)
  ∧ ∀ d, d ∈ latest_posts h allBlogs →
      ∃ j, allBlogs !! j = Some d ∧ (j < 2)%nat.
Proof.
  split; [|split].
  - rewrite Home_list_card, latest_posts_perm.
    by rewrite <- take_take, (take_ge allBlogs (length allBlogs)).
  - apply latest_posts_take.
  - intros d. apply latest_posts_elem.
Qed.

(** * Ties *)

(** C2: for two documents of the same timestamp the comparator answers [1]
    whichever comes first, and the order of the listing is the engine's: V8
    keeps the order of the collection, SpiderMonkey exchanges the two. *)
Theorem tie_order_depends_on_engine legacy a b :
  Date.new legacy (publishedAt a) = Date.new legacy (publishedAt b) →
  compareFn (mkHost V8 legacy) a b = 1
  ∧ compareFn (mkHost V8 legacy) b a = 1
  ∧ latest_posts (mkHost V8 legacy) [a; b] = [a; b]
  ∧ latest_posts (mkHost SpiderMonkey legacy) [a; b] = [b; a].
Proof.
  intros Htie. repeat split.
  - unfold compareFn, timestamp. simpl. by rewrite Htie, Date_gt_irrefl.
  - unfold compareFn, timestamp. simpl. by rewrite Htie, Date_gt_irrefl.
  - rewrite latest_posts_V8 by done. unfold timestamp. simpl.
    by rewrite Htie, Date_gt_irrefl.
  - rewrite latest_posts_SpiderMonkey by done. unfold timestamp. simpl.
    by rewrite Htie, Date_gt_irrefl.
Qed.

Lemma tie_order_depends_on_engine_witness :
  compareFn (strict V8) morning evening = 1
  ∧ compareFn (strict V8) evening morning = 1
  ∧ latest_posts (strict V8) [morning; evening] = [morning; evening]
  ∧ latest_posts (strict SpiderMonkey) [morning; evening] = [evening; morning].
Proof.
  apply (tie_order_depends_on_engine (λ _, None) morning evening). reflexivity.
Defined.

(** * The component on the store *)

(** C7: the component has no error of its own: wherever [allBlogs] is an
    array it returns its items, and for the empty array it returns none. *)
Theorem Home_returns h st allBlogs docs :
  st !! allBlogs = Some docs →
  ∃ items st', Home h allBlogs st = Some (items, st') ∧ (docs = [] → items = []).
Proof.
  intros Hdocs. eexists _, _. split; [by apply Home_run|].
  intros ->. by rewrite latest_posts_nil.
Qed.

Lemma Home_returns_witness :
  ∃ items st',
    Home (strict V8) 0 [[]] = Some (items, st') ∧ (@nil Blog = [] → items = []).
Proof. apply (Home_returns (strict V8) [[]] 0%nat []). reflexivity. Defined.

(** C8: the component leaves the store as it found it: [allBlogs] holds the
    same documents in the same order afterwards, and so does every other
    array that was there; the sort works on the copy that [slice] made. *)
Theorem Home_leaves_store h st allBlogs docs :
  st !! allBlogs = Some docs →
  ∃ items st',
    Home h allBlogs st = Some (items, st')
    ∧ st' !! allBlogs = Some docs
    ∧ take (length st) st' = st.
Proof.
  intros Hdocs. eexists _, _. split; [by apply Home_run|]. split.
  - rewrite lookup_app_l; [done|]. by apply lookup_lt_Some in Hdocs.
  - apply take_app_length.
Qed.

Lemma Home_leaves_store_witness :
  ∃ items st',
    Home (strict SpiderMonkey) 0 [[p1; p2; p3]] = Some (items, st')
    ∧ st' !! 0%nat = Some [p1; p2; p3]
    ∧ take (length [[p1; p2; p3]]) st' = [[p1; p2; p3]].
Proof.
  apply (Home_leaves_store (strict SpiderMonkey) [[p1; p2; p3]] 0%nat).
  reflexivity.
Defined.

(** C9: rendering twice over the same collection gives the same items both
    times. *)
Theorem Home_twice h st allBlogs docs :
  st !! allBlogs = Some docs →
  ∃ items st1 st2,
    Home h allBlogs st = Some (items, st1)
    ∧ Home h allBlogs st1 = Some (items, st2).
Proof.
  intros Hdocs. eexists _, _, _. split; [by apply Home_run|].
  apply Home_run. rewrite lookup_app_l; [done|]. by apply lookup_lt_Some in Hdocs.
Qed.

Lemma Home_twice_witness :
  ∃ items st1 st2,
    Home (strict V8) 0 [[p1; p2; p3]] = Some (items, st1)
    ∧ Home (strict V8) 0 st1 = Some (items, st2).
Proof.
  apply (Home_twice (strict V8) [[p1; p2; p3]] 0%nat [p1; p2; p3]). reflexivity.
Defined.

(** * Slugs *)

(** C10: the documents loaded from a directory, whose file names are distinct
    and end in [.mdx], have pairwise distinct slugs, and so have the keys of
    the items rendered from them. *)
Theorem slugs_unique dir :
  NoDup (filename <$> dir) →
  Forall (λ f, has_extension (filename f)) dir →
  NoDup (slug <$> allBlogs_of dir)
  ∧ ∀ h, NoDup (key <$> Home_list (latest_posts h (allBlogs_of dir))).
Proof.
  intros Hnames Hext.
  assert (NoDup (slug <$> allBlogs_of dir)) as Hslugs.
  { rewrite slug_allBlogs_of. apply NoDup_fmap_2_strong; [|done].
    intros n1 n2 Hn1 Hn2. rewrite Forall_forall in Hext.
    apply list_elem_of_fmap in Hn1 as (f1 & -> & Hf1).
    apply list_elem_of_fmap in Hn2 as (f2 & -> & Hf2).
    apply strip_extension_inj; auto. }
  split; [done|]. intros h.
  rewrite Home_list_key, latest_posts_perm, fmap_take.
  eapply sublist_NoDup; [exact Hslugs | apply sublist_take].
Qed.

Lemma slugs_unique_witness :
  NoDup (slug <$> allBlogs_of (content_dir "" ""))
  ∧ ∀ h, NoDup (key <$> Home_list (latest_posts h (allBlogs_of (content_dir "" "")))).
Proof.
  apply (slugs_unique (content_dir "" "")).
  - apply NoDup_cons. split; [|apply NoDup_singleton].
    intros Hin. apply list_elem_of_singleton in Hin. discriminate Hin.
  - repeat constructor.
    + by exists "format-nestjs-response".
    + by exists "serialize-response-nestjs".
Defined.

(** * Further properties of the listing *)

Lemma Date_gt_asym x y : Date.gt x y = true → Date.gt y x = false.
Proof.
  destruct x as [tx|], y as [ty|]; simpl; try done.
  intros H. apply Z.ltb_lt in H. apply Z.ltb_ge. lia.
Qed.

Lemma Date_gt_None_r x : Date.gt x None = false.
Proof. by destruct x. Qed.

(** X1: when one of the first two documents is strictly more recent than the
    other, it is listed first and the other second, on either engine,
    whichever of the two comes first in the collection and whatever follows
    them. *)
Theorem newer_of_first_two_leads h a b rest :
  Date.gt (timestamp h a) (timestamp h b) = true →
  latest_posts h (a :: b :: rest) = [a; b]
  ∧ latest_posts h (b :: a :: rest) = [a; b].
Proof.
  intros Hgt. pose proof (Date_gt_asym _ _ Hgt) as Hlt.
  destruct (js h) eqn:He.
  - rewrite !latest_posts_V8 by done. by rewrite Hgt, Hlt.
  - rewrite !latest_posts_SpiderMonkey by done. by rewrite Hgt, Hlt.
Qed.

Lemma newer_of_first_two_leads_witness :
  latest_posts (strict SpiderMonkey) (p2 :: p1 :: [p5]) = [p2; p1]
  ∧ latest_posts (strict SpiderMonkey) (p1 :: p2 :: [p5]) = [p2; p1].
Proof.
  apply (newer_of_first_two_leads (strict SpiderMonkey) p2 p1 [p5]).
  vm_compute. reflexivity.
Defined.

(** X2: when one of the first two documents has a [publishedAt] that is no
    date, the comparator answers [1] both ways: V8 lists the two in the order
    of the collection and SpiderMonkey in the opposite order. *)
Theorem invalid_date_order legacy a b rest :
  Date.new legacy (publishedAt a) = None ∨ Date.new legacy (publishedAt b) = None →
  compareFn (mkHost V8 legacy) a b = 1
  ∧ compareFn (mkHost V8 legacy) b a = 1
  ∧ latest_posts (mkHost V8 legacy) (a :: b :: rest) = [a; b]
  ∧ latest_posts (mkHost SpiderMonkey legacy) (a :: b :: rest) = [b; a].
Proof.
  intros Hnan.
  assert (Date.gt (Date.new legacy (publishedAt a)) (Date.new legacy (publishedAt b))
          = false) as Hab
    by (destruct Hnan as [Hn | Hn]; rewrite Hn; [done | apply Date_gt_None_r]).
  assert (Date.gt (Date.new legacy (publishedAt b)) (Date.new legacy (publishedAt a))
          = false) as Hba
    by (destruct Hnan as [Hn | Hn]; rewrite Hn; [apply Date_gt_None_r | done]).
  repeat split.
  - unfold compareFn, timestamp. simpl. by rewrite Hab.
  - unfold compareFn, timestamp. simpl. by rewrite Hba.
  - rewrite latest_posts_V8 by done. unfold timestamp. simpl. by rewrite Hba.
  - rewrite latest_posts_SpiderMonkey by done. unfold timestamp. simpl.
    by rewrite Hab.
Qed.

Lemma invalid_date_order_witness :
  compareFn (strict V8) draft p1 = 1
  ∧ compareFn (strict V8) p1 draft = 1
  ∧ latest_posts (strict V8) (draft :: p1 :: [p2]) = [draft; p1]
  ∧ latest_posts (strict SpiderMonkey) (draft :: p1 :: [p2]) = [p1; draft].
Proof.
  apply (invalid_date_order (λ _, None) draft p1 [p2]). left. reflexivity.
Defined.

(** X3: a collection of at most two dated documents is listed whole, in
    descending order, so that its first item is a most recent document of the
    collection. *)
Theorem small_collection_listed_whole h docs first d :
  (length docs ≤ 2)%nat →
  Forall (dated h) docs →
  head (latest_posts h docs) = Some first →
  d ∈ docs →
  latest_posts h docs ≡ₚ docs
  ∧ descending h (latest_posts h docs)
  ∧ Date.ge (timestamp h first) (timestamp h d) = true.
Proof.
  intros Hlen Hdated Hfirst Hd.
  assert (latest_posts h docs ≡ₚ docs) as Hperm
    by (by rewrite latest_posts_perm, take_ge).
  pose proof (latest_posts_descending h docs Hdated) as Hdesc.
  split; [done|]. split; [done|].
  assert (Date.ge (timestamp h d) (timestamp h d) = true) as Hrefl.
  { rewrite Forall_forall in Hdated. destruct (Hdated d Hd) as [t ->].
    simpl. apply Z.leb_refl. }
  rewrite <- Hperm in Hd.
  assert (length (latest_posts h docs) ≤ 2)%nat as Hshort
    by (rewrite latest_posts_length; lia).
  destruct (latest_posts h docs) as [|x [|y l]] eqn:Hout; simpl in *.
  - by apply elem_of_nil in Hd.
  - injection Hfirst as <-. by apply list_elem_of_singleton in Hd as ->.
  - injection Hfirst as <-.
    assert (l = []) as -> by (destruct l; [done | simpl in Hshort; lia]).
    apply elem_of_cons in Hd as [-> | Hd]; [done|].
    apply list_elem_of_singleton in Hd as ->.
    by apply (Hdesc 0%nat x y).
Qed.

Lemma small_collection_listed_whole_witness :
  latest_posts (strict V8) [p1; p2] ≡ₚ [p1; p2]
  ∧ descending (strict V8) (latest_posts (strict V8) [p1; p2])
  ∧ Date.ge (timestamp (strict V8) p2) (timestamp (strict V8) p1) = true.
Proof.
  apply (small_collection_listed_whole (strict V8) [p1; p2] p2 p1).
  - simpl. lia.
  - repeat constructor; vm_compute; eauto.
  - vm_compute. reflexivity.
  - apply list_elem_of_here.
Defined.

(** X4: a document that is strictly more recent than each of the first two
    documents of the collection is never listed, wherever it stands. *)
Theorem newer_post_beyond_two_not_listed h docs d :
  (∀ x, x ∈ take 2 docs → Date.gt (timestamp h d) (timestamp h x) = true) →
  d ∉ latest_posts h docs.
Proof.
  intros Hnewer Hin. rewrite latest_posts_perm in Hin.
  specialize (Hnewer d Hin). by rewrite Date_gt_irrefl in Hnewer.
Qed.

Lemma newer_post_beyond_two_not_listed_witness :
  p5 ∉ latest_posts (strict V8) five_posts.
Proof.
  apply (newer_post_beyond_two_not_listed (strict V8) five_posts p5).
  intros x Hx. unfold five_posts in Hx. cbn [take] in Hx.
  repeat (apply elem_of_cons in Hx as [-> | Hx]; [vm_compute; reflexivity|]).
  by apply elem_of_nil in Hx.
Defined.

(** X5: the comparator answers [-1] or [1] and never [0], also for a document
    against itself; its two answers for a pair are opposite exactly when both
    documents are dated and their timestamps differ. *)
Theorem compareFn_opposite_iff h a b :
  (compareFn h a b = -1 ∨ compareFn h a b = 1)
  ∧ compareFn h a a = 1
  ∧ (compareFn h a b = - compareFn h b a
     ↔ ∃ ta tb, timestamp h a = Some ta ∧ timestamp h b = Some tb ∧ ta ≠ tb).
Proof.
  unfold compareFn. rewrite Date_gt_irrefl.
  split; [destruct (Date.gt _ _); auto|]. split; [done|].
  destruct (timestamp h a) as [ta|], (timestamp h b) as [tb|]; simpl.
  - destruct (tb <? ta) eqn:E1, (ta <? tb) eqn:E2;
      (split; [intros H | intros (x & y & [= <-] & [= <-] & Hne)]);
      try done.
    + apply Z.ltb_lt in E1. apply Z.ltb_lt in E2. lia.
    + exists ta, tb. repeat split. apply Z.ltb_lt in E1. lia.
    + exists ta, tb. repeat split. apply Z.ltb_lt in E2. lia.
    + apply Z.ltb_ge in E1. apply Z.ltb_ge in E2. lia.
  - split; [done|]. by intros (x & y & _ & ? & _).
  - split; [done|]. by intros (x & y & ? & _).
  - split; [done|]. by intros (x & y & ? & _).
Qed.

(** X6: the two engines list a collection alike exactly when it has fewer
    than two documents, or one of its first two documents is strictly more
    recent than the other, or the two are the same document; in every other
    case, a tie or an unreadable date, they list the two in opposite
    orders. *)
Theorem engines_agree_iff legacy docs :
  latest_posts (mkHost V8 legacy) docs = latest_posts (mkHost SpiderMonkey legacy) docs
  ↔ (length docs < 2)%nat
    ∨ ∃ a b rest,
        docs = a :: b :: rest
        ∧ (Date.gt (Date.new legacy (publishedAt a)) (Date.new legacy (publishedAt b))
           = true
           ∨ Date.gt (Date.new legacy (publishedAt b)) (Date.new legacy (publishedAt a))
             = true
           ∨ a = b).
Proof.
  destruct docs as [|a [|b rest]].
  - rewrite !latest_posts_nil. split; [intros _; left; simpl; lia | done].
  - rewrite !latest_posts_one. split; [intros _; left; simpl; lia | done].
  - rewrite latest_posts_V8, latest_posts_SpiderMonkey by done.
    unfold timestamp. cbn [legacy_date].
    destruct (Date.gt (Date.new legacy (publishedAt a))
                (Date.new legacy (publishedAt b))) eqn:Hab.
    + rewrite (Date_gt_asym _ _ Hab). split; [|done].
      intros _. right. exists a, b, rest. auto.
    + destruct (Date.gt (Date.new legacy (publishedAt b))
                  (Date.new legacy (publishedAt a))) eqn:Hba.
      * split; [|done]. intros _. right. exists a, b, rest. auto.
      * split.
        -- intros [= ->]. right. exists b, b, rest. auto.
        -- intros [Hlen | (a' & b' & rest' & [= <- <- <-] & [H | [H | ->]])];
             [simpl in Hlen; lia | congruence | congruence | done].
Qed.

(** * Further properties of the arrays *)

(** X7: whatever the bounds, negative or beyond the end, [slice] returns a
    contiguous segment of the array: the array is a prefix of
    [slice_index len start] elements, the slice, and a rest; the slice has
    [max (final - k) 0] elements. *)
Theorem slice_segment {A : Type} (xs : list A) (start stop : Z) :
  let len := Z.of_nat (length xs) in
  let k := slice_index len start in
  let final := slice_index len stop in
  ∃ pre post,
    xs = pre ++ slice xs start stop ++ post
    ∧ Z.of_nat (length pre) = k
    ∧ Z.of_nat (length (slice xs start stop)) = Z.max (final - k) 0.
Proof.
  intros len k final.
  assert (0 ≤ k ≤ len) as Hk by (unfold k, slice_index; destruct (Z.ltb_spec start 0); lia).
  assert (0 ≤ final ≤ len) as Hf
    by (unfold final, slice_index; destruct (Z.ltb_spec stop 0); lia).
  exists (take (Z.to_nat k) xs),
         (drop (Z.to_nat (Z.max (final - k) 0)) (drop (Z.to_nat k) xs)).
  unfold slice. fold len. fold k. fold final.
  split; [by rewrite take_drop, take_drop|]. split.
  - rewrite length_take. unfold len in *. lia.
  - rewrite length_take, length_drop. unfold len in *. lia.
Qed.

(** X8: [sort] returns the array it was called on, which afterwards holds a
    permutation of its former elements, whatever the comparator answers; the
    store has no further array and no other array has changed. *)
Theorem Array_sort_in_place e st xs comparefn elems :
  st !! xs = Some elems →
  ∃ st' sorted,
    Array_sort e xs comparefn st = Some (xs, st')
    ∧ st' !! xs = Some sorted
    ∧ sorted ≡ₚ elems
    ∧ length st' = length st
    ∧ ∀ other, other ≠ xs → st' !! other = st !! other.
Proof.
  intros Hxs. unfold Array_sort. rewrite Hxs. eexists _, _.
  split; [done|]. split; [|split; [|split]].
  - apply list_lookup_insert_eq. by apply lookup_lt_Some in Hxs.
  - apply engine_sort_perm.
  - apply length_insert.
  - intros other Hne. by apply list_lookup_insert_ne.
Qed.

Lemma Array_sort_in_place_witness :
  ∃ st' sorted,
    Array_sort SpiderMonkey 1 (λ _ _, 1) [[p1]; [p1; p2; p3]] = Some (1%nat, st')
    ∧ st' !! 1%nat = Some sorted
    ∧ sorted ≡ₚ [p1; p2; p3]
    ∧ length st' = length [[p1]; [p1; p2; p3]]
    ∧ ∀ other, other ≠ 1%nat → st' !! other = [[p1]; [p1; p2; p3]] !! other.
Proof.
  apply (Array_sort_in_place SpiderMonkey [[p1]; [p1; p2; p3]] 1%nat (λ _ _, 1)).
  reflexivity.
Defined.

(** X9: [slice] returns a reference that held no array before and now holds
    the slice; every array of the store, the sliced one among them, is as it
    was. *)
Theorem Array_slice_fresh st xs start stop elems :
  st !! xs = Some elems →
  ∃ r st',
    Array_slice xs start stop st = Some (r, st')
    ∧ st !! r = None
    ∧ st' !! r = Some (slice elems start stop)
    ∧ ∀ other, other ≠ r → st' !! other = st !! other.
Proof.
  intros Hxs. unfold Array_slice. rewrite Hxs. eexists _, _.
  split; [done|]. split; [|split].
  - by apply lookup_ge_None.
  - by apply list_lookup_middle.
  - intros other Hne. destruct (decide (other < length st)%nat) as [Hlt|Hge].
    + by apply lookup_app_l.
    + rewrite (lookup_ge_None_2 st other) by lia.
      apply lookup_ge_None. rewrite length_app. simpl. lia.
Qed.

Lemma Array_slice_fresh_witness :
  ∃ r st',
    Array_slice 0 (-2) 5 [[p1; p2; p3]] = Some (r, st')
    ∧ [[p1; p2; p3]] !! r = None
    ∧ st' !! r = Some (slice [p1; p2; p3] (-2) 5)
    ∧ ∀ other, other ≠ r → st' !! other = [[p1; p2; p3]] !! other.
Proof. apply (Array_slice_fresh [[p1; p2; p3]] 0%nat (-2) 5). reflexivity. Defined.

(** X10: every run of the component makes an array of its own: two runs return
    two different references, neither of them [allBlogs], which hold the same
    listing side by side while [allBlogs] holds the collection as before. *)
Theorem Home_blogs_twice_fresh h st allBlogs docs :
  st !! allBlogs = Some docs →
  ∃ r1 st1 r2 st2,
    Home_blogs h allBlogs st = Some (r1, st1)
    ∧ Home_blogs h allBlogs st1 = Some (r2, st2)
    ∧ r1 ≠ r2 ∧ r1 ≠ allBlogs ∧ r2 ≠ allBlogs
    ∧ st2 !! r1 = Some (latest_posts h docs)
    ∧ st2 !! r2 = Some (latest_posts h docs)
    ∧ st2 !! allBlogs = Some docs.
Proof.
  intros Hdocs. pose proof (lookup_lt_Some _ _ _ Hdocs) as Hlt.
  assert ((st ++ [latest_posts h docs]) !! allBlogs = Some docs) as Hdocs1
    by (by rewrite lookup_app_l).
  eexists _, _, _, _.
  split; [by apply Home_blogs_run|]. split; [by apply Home_blogs_run|].
  rewrite length_app. simpl. repeat split; try lia.
  - rewrite lookup_app_l by (rewrite length_app; simpl; lia).
    by apply list_lookup_middle.
  - apply list_lookup_middle. rewrite length_app. simpl. lia.
  - rewrite lookup_app_l by (rewrite length_app; simpl; lia). done.
Qed.

Lemma Home_blogs_twice_fresh_witness :
  ∃ r1 st1 r2 st2,
    Home_blogs (strict V8) 0 [[p1; p2; p3]] = Some (r1, st1)
    ∧ Home_blogs (strict V8) 0 st1 = Some (r2, st2)
    ∧ r1 ≠ r2 ∧ r1 ≠ 0%nat ∧ r2 ≠ 0%nat
    ∧ st2 !! r1 = Some (latest_posts (strict V8) [p1; p2; p3])
    ∧ st2 !! r2 = Some (latest_posts (strict V8) [p1; p2; p3])
    ∧ st2 !! 0%nat = Some [p1; p2; p3].
Proof.
  apply (Home_blogs_twice_fresh (strict V8) [[p1; p2; p3]] 0%nat [p1; p2; p3]).
  reflexivity.
Defined.

(** * Further properties of the rendering *)

Lemma blog_href_inj (slug1 slug2 : string) :
  "/blog/" +:+ slug1 = "/blog/" +:+ slug2 → slug1 = slug2.
Proof. cbn. intros Heq. by injection Heq. Qed.

(** X11: the list under "Latest posts" has one item per blog, in the order of
    the blogs, each linking to [/blog/] followed by its key, which is the
    slug of its card; blogs of pairwise distinct slugs get pairwise distinct
    links. *)
Theorem Home_list_links blogs :
  NoDup (slug <$> blogs) →
  NoDup (href <$> Home_list blogs)
  ∧ card <$> Home_list blogs = blogs
  ∧ ∀ it, it ∈ Home_list blogs →
      href it = "/blog/" +:+ key it ∧ key it = slug (card it).
Proof.
  intros Hslugs. split; [|split].
  - unfold Home_list. rewrite <- list_fmap_compose.
    apply NoDup_fmap_2_strong.
    + intros b1 b2 Hb1 Hb2 Heq. simpl in Heq.
      apply blog_href_inj in Heq.
      apply NoDup_fmap_1 in Hslugs as Hnodup.
      destruct (list_elem_of_lookup_1 _ _ Hb1) as [i Hi].
      destruct (list_elem_of_lookup_1 _ _ Hb2) as [j Hj].
      assert (i = j) as ->.
      { apply (NoDup_lookup _ i j (slug b1) Hslugs).
        - by rewrite list_lookup_fmap, Hi.
        - by rewrite list_lookup_fmap, Hj, Heq. }
      congruence.
    + by apply NoDup_fmap_1 in Hslugs.
  - apply Home_list_card.
  - intros it Hit. unfold Home_list in Hit.
    apply list_elem_of_fmap in Hit as (b & -> & _). done.
Qed.

Lemma Home_list_links_witness :
  NoDup (href <$> Home_list [p1; p2])
  ∧ card <$> Home_list [p1; p2] = [p1; p2]
  ∧ ∀ it, it ∈ Home_list [p1; p2] →
      href it = "/blog/" +:+ key it ∧ key it = slug (card it).
Proof.
  apply (Home_list_links [p1; p2]).
  apply NoDup_cons. split; [|apply NoDup_singleton].
  intros Hin. apply list_elem_of_singleton in Hin. discriminate Hin.
Defined.

(** X12: the social links are rendered one per entry and in the order of
    the entries; entries of pairwise distinct labels get pairwise distinct
    keys and pairwise distinct accessible names.  [SOCIALS] is such a list. *)
Theorem Home_socials_distinct socials :
  NoDup (Social.label <$> socials) →
  NoDup (Social.key <$> Home_socials socials)
  ∧ NoDup (Social.aria_label <$> Home_socials socials)
  ∧ Social.link_href <$> Home_socials socials = Social.href <$> socials.
Proof.
  intros Hlabels. unfold Home_socials. rewrite <- !list_fmap_compose.
  split; [done|]. split; [|done].
  rewrite (list_fmap_compose Social.label (String.append "Follow on ")).
  apply NoDup_fmap_2; [|done].
  intros l1 l2 Heq. simpl in Heq. by injection Heq.
Qed.

Lemma Home_socials_distinct_witness :
  NoDup (Social.key <$> Home_socials SOCIALS)
  ∧ NoDup (Social.aria_label <$> Home_socials SOCIALS)
  ∧ Social.link_href <$> Home_socials SOCIALS = Social.href <$> SOCIALS.
Proof.
  apply (Home_socials_distinct SOCIALS).
  repeat (apply NoDup_cons; split;
          [intros Hin;
           repeat (apply elem_of_cons in Hin as [Heq | Hin]; [discriminate Heq|]);
           by apply elem_of_nil in Hin|]).
  apply NoDup_nil_2.
Defined.

(** * Further properties of the dates *)

Lemma digit_digit_char k : 0 ≤ k ≤ 9 → Date.digit (digit_char k) = Some k.
Proof.
  intros Hk.
  assert (k = 0 ∨ k = 1 ∨ k = 2 ∨ k = 3 ∨ k = 4 ∨ k = 5 ∨ k = 6 ∨ k = 7
          ∨ k = 8 ∨ k = 9) as Hcases by lia.
  repeat (destruct Hcases as [-> | Hcases]; [reflexivity|]).
  by subst k.
Qed.

Lemma digits_two n rest :
  0 ≤ n ≤ 99 → Date.digits 2 0 (two_digits n ++ rest) = Some (n, rest).
Proof.
  intros Hn. unfold two_digits. cbn [app Date.digits].
  assert (0 ≤ n / 10 ≤ 9) by (Z.div_mod_to_equations; lia).
  assert (0 ≤ n mod 10 ≤ 9) by (Z.div_mod_to_equations; lia).
  rewrite !digit_digit_char by done.
  cbn [mbind option_bind]. do 2 f_equal.
  Z.div_mod_to_equations; lia.
Qed.

Lemma digits_four n rest :
  0 ≤ n ≤ 9999 → Date.digits 4 0 (four_digits n ++ rest) = Some (n, rest).
Proof.
  intros Hn. unfold four_digits. cbn [app Date.digits].
  assert (0 ≤ n / 1000 ≤ 9) by (Z.div_mod_to_equations; lia).
  assert (0 ≤ n / 100 mod 10 ≤ 9) by (Z.div_mod_to_equations; lia).
  assert (0 ≤ n / 10 mod 10 ≤ 9) by (Z.div_mod_to_equations; lia).
  assert (0 ≤ n mod 10 ≤ 9) by (Z.div_mod_to_equations; lia).
  rewrite !digit_digit_char by done.
  cbn [mbind option_bind]. do 2 f_equal.
  Z.div_mod_to_equations; lia.
Qed.

Lemma DayFromYear_succ y :
  Date.DayFromYear (y + 1)
  = Date.DayFromYear y + (if Date.InLeapYear y then 366 else 365).
Proof.
  unfold Date.DayFromYear, Date.InLeapYear.
  destruct (Z.eqb_spec (y mod 4) 0), (Z.eqb_spec (y mod 100) 0),
    (Z.eqb_spec (y mod 400) 0); simpl; Z.div_mod_to_equations; lia.
Qed.

Lemma DayFromYear_mono y y' : y ≤ y' → Date.DayFromYear y ≤ Date.DayFromYear y'.
Proof.
  intros Hle. unfold Date.DayFromYear. Z.div_mod_to_equations. lia.
Qed.

Lemma DaysInMonth_pos y m : 28 ≤ Date.DaysInMonth y m ≤ 31.
Proof.
  unfold Date.DaysInMonth.
  destruct (m =? 2); [destruct (Date.InLeapYear y); lia|].
  destruct (_ || _); lia.
Qed.

Lemma DaysBeforeMonth_mono y n n' :
  (n ≤ n')%nat → Date.DaysBeforeMonth y n ≤ Date.DaysBeforeMonth y n'.
Proof.
  induction 1 as [|n' _ IH]; [lia|]. cbn [Date.DaysBeforeMonth].
  pose proof (DaysInMonth_pos y (Z.of_nat (S n'))). lia.
Qed.

Lemma DaysBeforeMonth_year y :
  Date.DaysBeforeMonth y 12 = if Date.InLeapYear y then 366 else 365.
Proof.
  cbn [Date.DaysBeforeMonth]. unfold Date.DaysInMonth. simpl.
  destruct (Date.InLeapYear y); reflexivity.
Qed.

(** The place of a day in its year. *)
Lemma day_of_year_bounds y m d :
  1 ≤ m ≤ 12 → 1 ≤ d ≤ Date.DaysInMonth y m →
  Date.DaysBeforeMonth y (Z.to_nat (m - 1)) + d
  ≤ Date.DaysBeforeMonth y (Z.to_nat m)
  ∧ Date.DaysBeforeMonth y (Z.to_nat m)
    ≤ (if Date.InLeapYear y then 366 else 365).
Proof.
  intros Hm Hd. split.
  - replace (Z.to_nat m) with (S (Z.to_nat (m - 1))) by lia.
    cbn [Date.DaysBeforeMonth].
    replace (Z.of_nat (S (Z.to_nat (m - 1)))) with m by lia. lia.
  - rewrite <- DaysBeforeMonth_year. apply DaysBeforeMonth_mono. lia.
Qed.

Lemma MakeDay_later y1 m1 d1 y2 m2 d2 :
  1 ≤ m1 ≤ 12 → 1 ≤ d1 ≤ Date.DaysInMonth y1 m1 →
  1 ≤ m2 ≤ 12 → 1 ≤ d2 ≤ Date.DaysInMonth y2 m2 →
  later y1 m1 d1 y2 m2 d2 →
  Date.MakeDay y2 m2 d2 < Date.MakeDay y1 m1 d1.
Proof.
  intros Hm1 Hd1 Hm2 Hd2 Hlater. unfold Date.MakeDay.
  destruct (day_of_year_bounds y1 m1 d1 Hm1 Hd1) as [Hin1 Hyear1].
  destruct (day_of_year_bounds y2 m2 d2 Hm2 Hd2) as [Hin2 Hyear2].
  pose proof (DaysBeforeMonth_mono y1 0 (Z.to_nat (m1 - 1))) as Hpos1.
  cbn [Date.DaysBeforeMonth] in Hpos1.
  destruct Hlater as [Hy | [-> [Hm | [-> Hd]]]].
  - pose proof (DayFromYear_succ y2) as Hsucc.
    pose proof (DayFromYear_mono (y2 + 1) y1). lia.
  - pose proof (DaysBeforeMonth_mono y2 (Z.to_nat m2) (Z.to_nat (m1 - 1))). lia.
  - lia.
Qed.

Lemma MakeDay_calendar_order y1 m1 d1 y2 m2 d2 :
  1 ≤ m1 ≤ 12 → 1 ≤ d1 ≤ Date.DaysInMonth y1 m1 →
  1 ≤ m2 ≤ 12 → 1 ≤ d2 ≤ Date.DaysInMonth y2 m2 →
  Date.MakeDay y2 m2 d2 < Date.MakeDay y1 m1 d1 ↔ later y1 m1 d1 y2 m2 d2.
Proof.
  intros Hm1 Hd1 Hm2 Hd2. split; [|by apply MakeDay_later].
  intros Hlt.
  destruct (decide (later y1 m1 d1 y2 m2 d2)) as [|Hnot]; [done|].
  assert (later y2 m2 d2 y1 m1 d1 ∨ (y1 = y2 ∧ m1 = m2 ∧ d1 = d2)) as [Hrev | Heq]
    by (unfold later in *; lia).
  - apply MakeDay_later in Hrev; [lia | done..].
  - destruct Heq as (-> & -> & ->). lia.
Qed.

Lemma parse_date_chars y m d rest :
  calendar_date y m d →
  Date.parse_date (date_chars y m d ++ rest) = Some (y, m, d, rest).
Proof.
  intros (Hy & Hm & Hd). pose proof (DaysInMonth_pos y m).
  unfold Date.parse_date, date_chars.
  rewrite <- app_assoc, digits_four by done. cbn [mbind option_bind app].
  rewrite <- app_assoc, digits_two by lia. cbn [mbind option_bind app].
  rewrite digits_two by lia. reflexivity.
Qed.

Lemma calendar_date_check y m d :
  calendar_date y m d →
  negb ((1 <=? m) && (m <=? 12) && (1 <=? d) && (d <=? Date.DaysInMonth y m)) = false.
Proof.
  intros (_ & Hm & Hd).
  rewrite !(proj2 (Z.leb_le _ _)) by lia. reflexivity.
Qed.

Lemma midnight_time :
  Date.parse_time (list_ascii_of_string "00:00:00.000Z")
  = Some (0, 0, 0, 0, ["Z"%char]).
Proof. vm_compute. reflexivity. Qed.

Lemma date_string_parse y m d :
  calendar_date y m d →
  Date.parse (date_string y m d) = Some (Date.MakeDay y m d * Date.msPerDay)
  ∧ Date.parse (midnight_string y m d) = Some (Date.MakeDay y m d * Date.msPerDay).
Proof.
  intros Hdate. split.
  - unfold Date.parse, date_string.
    rewrite list_ascii_of_string_of_list_ascii.
    rewrite <- (app_nil_r (date_chars y m d)), parse_date_chars by done.
    cbn [mbind option_bind]. rewrite calendar_date_check by done.
    unfold Date.MakeDate. f_equal. lia.
  - unfold Date.parse, midnight_string.
    rewrite list_ascii_of_string_of_list_ascii.
    rewrite parse_date_chars by done.
    cbn [mbind option_bind]. rewrite calendar_date_check by done.
    change (list_ascii_of_string "T00:00:00.000Z")
      with ("T"%char :: list_ascii_of_string "00:00:00.000Z").
    cbv beta iota. rewrite midnight_time. cbn [mbind option_bind].
    change (Date.parse_offset ["Z"%char]) with (Some 0).
    cbn [mbind option_bind]. change (Date.valid_time 0 0 0 0) with true.
    cbv beta iota. unfold Date.MakeDate, Date.MakeTime. f_equal. lia.
Qed.

(** X13: a date-only string [YYYY-MM-DD] that names a day of the calendar is
    read by every host as midnight UTC of that day, [MakeDay y m d] days after
    the epoch, and so is the date-time string of that midnight. *)
Theorem date_string_time_value legacy y m d :
  calendar_date y m d →
  Date.new legacy (date_string y m d)
  = Some (Date.MakeDay y m d * Date.msPerDay)
  ∧ Date.new legacy (midnight_string y m d)
    = Date.new legacy (date_string y m d).
Proof.
  intros Hdate. destruct (date_string_parse y m d Hdate) as [Hshort Hlong].
  unfold Date.new. by rewrite Hshort, Hlong.
Qed.

Lemma date_string_time_value_witness :
  Date.new (λ _, None) (date_string 2024 4 28)
  = Some (Date.MakeDay 2024 4 28 * Date.msPerDay)
  ∧ Date.new (λ _, None) (midnight_string 2024 4 28)
    = Date.new (λ _, None) (date_string 2024 4 28).
Proof.
  apply (date_string_time_value (λ _, None) 2024 4 28).
  unfold calendar_date. vm_compute. intuition discriminate.
Defined.

(** X14: between two documents whose [publishedAt] are date-only strings of
    days of the calendar, the comparator answers [-1] exactly when the first
    day is later in the calendar than the second; the page orders such
    documents by calendar date. *)
Theorem compareFn_calendar_order h a b y1 m1 d1 y2 m2 d2 :
  calendar_date y1 m1 d1 →
  calendar_date y2 m2 d2 →
  publishedAt a = date_string y1 m1 d1 →
  publishedAt b = date_string y2 m2 d2 →
  compareFn h a b = -1 ↔ later y1 m1 d1 y2 m2 d2.
Proof.
  intros Hdate1 Hdate2 Ha Hb. unfold compareFn, timestamp. rewrite Ha, Hb.
  destruct (date_string_parse y1 m1 d1 Hdate1) as [H1 _].
  destruct (date_string_parse y2 m2 d2 Hdate2) as [H2 _].
  rewrite (Date_new_parse _ _ _ H1), (Date_new_parse _ _ _ H2).
  destruct Hdate1 as (_ & Hm1 & Hd1), Hdate2 as (_ & Hm2 & Hd2).
  rewrite <- (MakeDay_calendar_order y1 m1 d1 y2 m2 d2) by done.
  cbn [Date.gt]. unfold Date.msPerDay.
  destruct (Z.ltb_spec (Date.MakeDay y2 m2 d2 * 86400000)
              (Date.MakeDay y1 m1 d1 * 86400000)); split; intros; try done; lia.
Qed.

Lemma compareFn_calendar_order_witness :
  compareFn (strict V8) p2 p1 = -1 ↔ later 2024 1 2 2024 1 1.
Proof.
  apply (compareFn_calendar_order (strict V8) p2 p1 2024 1 2 2024 1 1).
  - unfold calendar_date. vm_compute. intuition discriminate.
  - unfold calendar_date. vm_compute. intuition discriminate.
  - reflexivity.
  - reflexivity.
Defined.

(** * The response interceptor *)

Lemma data_map_responseHandler {T : Type} context clock i (values : list T) :
  Nest.data <$> Nest.map_responseHandler context clock i values = values.
Proof.
  revert i. induction values as [|res values IH]; intros i; [done|].
  cbn [Nest.map_responseHandler]. rewrite fmap_cons. by rewrite IH.
Qed.

Lemma map_responseHandler_lookup {T : Type} context clock i (values : list T) k r :
  Nest.map_responseHandler context clock i values !! k = Some r →
  ∃ res, values !! k = Some res
         ∧ r = Nest.responseHandler res context (clock (i + k)%nat).
Proof.
  revert i k. induction values as [|res values IH]; intros i k; [done|].
  cbn [Nest.map_responseHandler]. destruct k as [|k]; simpl.
  - intros [= <-]. exists res. by rewrite Nat.add_0_r.
  - intros Hk. apply IH in Hk as (res' & Hres & ->).
    exists res'. split; [done|]. do 2 f_equal. lia.
Qed.

(** X15: a message given to a route handler with [ResponseMessage] is the
    message of its responses, unless it is the empty string, which gives
    ["success"] as an undecorated handler does; metadata under another name
    does not change the message. *)
Theorem ResponseMessage_read {T : Type} (res : T) context now message name value :
  name ≠ Nest.RESPONSE_MESSAGE_METADATA →
  Nest.message
    (Nest.responseHandler res (decorated (Nest.ResponseMessage message) context) now)
  = (if String.eqb message "" then "success" else message)
  ∧ Nest.message
      (Nest.responseHandler res
         (decorated (Nest.SetMetadata name value) context) now)
    = Nest.message (Nest.responseHandler res context now)
  ∧ Nest.message (Nest.responseHandler res (decorated (λ _, ∅) context) now)
    = "success".
Proof.
  intros Hname. unfold Nest.responseHandler, decorated, Nest.Reflector_get. simpl.
  split; [|split].
  - unfold Nest.ResponseMessage, Nest.SetMetadata. by rewrite lookup_insert_eq.
  - unfold Nest.SetMetadata. by rewrite lookup_insert_ne.
  - by rewrite lookup_empty.
Qed.

Lemma ResponseMessage_read_witness :
  Nest.message
    (Nest.responseHandler 7
       (decorated (Nest.ResponseMessage "User data fetched successfully")
          (Nest.mkContext "/api/v1/users/7" 200 ∅)) "2024-04-28 17:50:37")
  = "User data fetched successfully"
  ∧ Nest.message
      (Nest.responseHandler 7
         (decorated (Nest.SetMetadata "roles" "admin")
            (Nest.mkContext "/api/v1/users/7" 200 ∅)) "2024-04-28 17:50:37")
    = Nest.message
        (Nest.responseHandler 7 (Nest.mkContext "/api/v1/users/7" 200 ∅)
           "2024-04-28 17:50:37")
  ∧ Nest.message
      (Nest.responseHandler 7
         (decorated (λ _, ∅) (Nest.mkContext "/api/v1/users/7" 200 ∅))
         "2024-04-28 17:50:37")
    = "success".
Proof.
  apply (ResponseMessage_read 7 (Nest.mkContext "/api/v1/users/7" 200 ∅)
           "2024-04-28 17:50:37" "User data fetched successfully" "roles" "admin").
  discriminate.
Defined.

(** X16: on a stream that completes, the interceptor sends nothing itself and
    completes too; it emits one response per value, in order, whose [data]
    are the values unchanged, each with [status] true and with the path and
    the status code of the context. *)
Theorem intercept_completed {T : Type} context clock (values : list T) :
  ∃ responses,
    Nest.intercept context clock (Nest.mkObservable values None)
    = (Nest.mkObservable responses None, None)
    ∧ Nest.data <$> responses = values
    ∧ Forall (λ r, Nest.status r = true
                   ∧ Nest.path r = Nest.url context
                   ∧ Nest.statusCode r = Nest.response_statusCode context)
        responses.
Proof.
  eexists. split; [reflexivity|]. split; [apply data_map_responseHandler|].
  apply Forall_lookup. intros k r Hk.
  apply map_responseHandler_lookup in Hk as (res & _ & ->). done.
Qed.

